(** * The data registry facade of [packages/dataregistry/src/dataregistry.ts]

    [DataRegistry] composes a converter registry and a dataset registry.
    Both collaborators, the URL resolvers and the viewer mime type encoding
    are imported by the source file; they enter this development as
    interfaces (type classes) whose operations the facade calls.

    The facade is embedded in a small monad over the registry state that
    also records, in order, every call the facade makes on a collaborator.
    Asynchronous methods are run to completion; the asynchronous iterator
    returned by [convert] is a state machine stepped by [next]. *)

From stdpp Require Import base option list gmap sets strings.

Set Default Proof Using "Type".

(** ** Data model *)

(** A [URL] object is identified by its href. *)
Definition URL := string.
Definition MimeType := string.

(** [Dataset<T>]: a mime type, a URL and a payload. *)
Record Dataset (T : Type) := mkDataset {
  mimeType : MimeType;
  url : URL;
  data : T
}.
Arguments mkDataset {T} _ _ _.
Arguments mimeType {T} _.
Arguments url {T} _.
Arguments data {T} _.

(** Exceptions: the [TypeError] the language raises on [undefined.data()],
    and whatever value a collaborator throws. *)
Inductive exn (Err : Type) :=
| TypeError
| Thrown (e : Err).
Arguments TypeError {Err}.
Arguments Thrown {Err} _.

(** How an awaited computation ends: it returns, it throws (the promise is
    rejected), or its promise never settles.  [OutOfFuel] is the bound of
    the embedding on the number of [next] requests, not a behaviour of the
    program. *)
Inductive Completion (Err A : Type) :=
| Return (a : A)
| Raise (e : exn Err)
| Pending
| OutOfFuel.
Arguments Return {Err A} _.
Arguments Raise {Err A} _.
Arguments Pending {Err A}.
Arguments OutOfFuel {Err A}.

(** What [await iterator.next()] gives: [{done: false, value}] with the
    resumed iterator, [{done: true}], a rejection, or no settlement. *)
Inductive IteratorResult (Payload Err G : Type) :=
| IYield (d : Dataset Payload) (g : G)
| IDone
| IThrow (e : exn Err)
| IPending.
Arguments IYield {Payload Err G} _ _.
Arguments IDone {Payload Err G}.
Arguments IThrow {Payload Err G} _.
Arguments IPending {Payload Err G}.

(** ** The collaborators' interfaces *)

(** [IDatasetRegistry] ([./datasets]), over the state [D] of the store. *)
Class IDatasetRegistry (Payload IDisposable D : Type) := {
  contains : D → Dataset Payload → bool;
  publish : D → Dataset Payload → IDisposable * D;
  filterByURL : D → URL → list (Dataset Payload);
  mimeTypesForURL : D → URL → gset MimeType
}.

(** The record of the two registries a [DataRegistry] object points to. *)
Record DataRegistry (C D : Type) := mkDataRegistry {
  converters : C;
  data_ : D
}.
Arguments mkDataRegistry {C D} _ _.
Arguments converters {C D} _.
Arguments data_ {C D} _.

(** [IConverterRegistry] ([./converters]), over the state [C] of the
    converter registry and the state [G] of the asynchronous iterator that
    [convert] returns.  Resuming the iterator may read and change both
    registries. *)
Class IConverterRegistry (Payload Err C D G : Type) := {
  listTargetMimeTypes : C → URL → list MimeType → gset MimeType;
  convert : C → list (Dataset Payload) → MimeType → G;
  next : G → DataRegistry C D
         → IteratorResult Payload Err G * DataRegistry C D
}.

(** [./resolvers]: [resolveDataSet] is a function of the URL;
    [resolveMimeType] is used by the source as a mime type (it is put, as
    it is, in the array of seed mime types). *)
Class Resolvers (Payload : Type) := {
  resolveDataSet : URL → Dataset Payload;
  resolveMimeType : MimeType
}.

(** [./viewers]; [extractViewerLabel] returns [null] as [None]. *)
Class Viewers := {
  createViewerMimeType : string → MimeType;
  extractViewerLabel : MimeType → option string
}.

(** Calling a payload as [() => Promise<void>] and awaiting the promise. *)
Class Callable (Payload Err C D : Type) := {
  call : Payload → DataRegistry C D
         → Completion Err unit * DataRegistry C D
}.

(** ** The facade *)

Section Facade.
Context {Payload Err IDisposable C D G : Type}.
Context `{!IDatasetRegistry Payload IDisposable D}.
Context `{!IConverterRegistry Payload Err C D G}.
Context `{!Resolvers Payload}.
Context `{!Viewers}.
Context `{!Callable Payload Err C D}.

Local Abbreviation dataset := (Dataset Payload).
Local Abbreviation registry := (DataRegistry C D).

(** Calls of the facade on its collaborators, as they are observed. *)
Inductive Event :=
| EvResolveDataSet (u : URL)
| EvContains (d : dataset) (b : bool)
| EvPublish (d : dataset)
| EvFilterByURL (u : URL)
| EvMimeTypesForURL (u : URL)
| EvListTargetMimeTypes (u : URL) (seeds : list MimeType)
| EvConvert (sources : list dataset) (target : MimeType)
| EvNext
| EvYield (d : dataset)
| EvDone
| EvThrown (e : exn Err)
| EvCall (d : dataset).

(** *** The monad: registry state, completion, observed calls *)

Record Run (A : Type) := mkRun {
  completion : Completion Err A;
  final : registry;
  events : list Event
}.
Global Arguments mkRun {A} _ _ _.
Global Arguments completion {A} _.
Global Arguments final {A} _.
Global Arguments events {A} _.

Definition M (A : Type) : Type := registry → Run A.

Definition ret {A} (a : A) : M A := λ r, mkRun (Return a) r [].

Definition raise {A} (e : exn Err) : M A := λ r, mkRun (Raise e) r [].

Definition bind {A B} (m : M A) (k : A → M B) : M B := λ r,
  let x := m r in
  match completion x with
  | Return a =>
      let y := k a (final x) in
      mkRun (completion y) (final y) (events x ++ events y)
  | Raise e => mkRun (Raise e) (final x) (events x)
  | Pending => mkRun Pending (final x) (events x)
  | OutOfFuel => mkRun OutOfFuel (final x) (events x)
  end.

Definition emit (ev : Event) : M unit := λ r, mkRun (Return tt) r [ev].

Local Notation "x ← m ; k" := (bind m (λ x, k))
  (at level 20, m at level 100, k at level 200, only parsing).
Local Notation "m ;; k" := (bind m (λ _, k))
  (at level 100, k at level 200, right associativity, only parsing).

(** *** Collaborator calls, lifted *)

Definition call_resolveDataSet (u : URL) : M dataset :=
  emit (EvResolveDataSet u);; ret (resolveDataSet u).

Definition data_contains (d : dataset) : M bool := λ r,
  let b := contains (data_ r) d in
  mkRun (Return b) r [EvContains d b].

Definition data_publish (d : dataset) : M IDisposable := λ r,
  let '(h, s) := publish (data_ r) d in
  mkRun (Return h) (mkDataRegistry (converters r) s) [EvPublish d].

Definition data_filterByURL (u : URL) : M (list dataset) := λ r,
  mkRun (Return (filterByURL (data_ r) u)) r [EvFilterByURL u].

Definition data_mimeTypesForURL (u : URL) : M (gset MimeType) := λ r,
  mkRun (Return (mimeTypesForURL (data_ r) u)) r [EvMimeTypesForURL u].

Definition converters_listTargetMimeTypes (u : URL) (seeds : list MimeType)
  : M (gset MimeType) := λ r,
  mkRun (Return (listTargetMimeTypes (converters r) u seeds)) r
        [EvListTargetMimeTypes u seeds].

Definition converters_convert (sources : list dataset) (t : MimeType)
  : M G := λ r,
  mkRun (Return (convert (converters r) sources t)) r [EvConvert sources t].

(** [await iterator.next()] *)
Definition iterator_next (g : G) : M (option (dataset * G)) := λ r,
  let '(res, r') := next g r in
  match res with
  | IYield d g' => mkRun (Return (Some (d, g'))) r' [EvNext; EvYield d]
  | IDone => mkRun (Return None) r' [EvNext; EvDone]
  | IThrow e => mkRun (Raise e) r' [EvNext; EvThrown e]
  | IPending => mkRun Pending r' [EvNext]
  end.

(** [await viewer.data()] *)
Definition call_data (d : dataset) : M unit := λ r,
  let '(c, r') := call (data d) r in
  mkRun c r' [EvCall d].

(** *** Methods of [DataRegistry] *)

Definition registerURL (url : URL) : M (option IDisposable) :=
  dataset ← call_resolveDataSet url;
  b ← data_contains dataset;
  if b then ret None
  else h ← data_publish dataset; ret (Some h).

Definition hasConversions (url : URL) : M bool :=
  targets ← converters_listTargetMimeTypes url [resolveMimeType];
  ret (bool_decide (1 < size targets)).

Definition possibleMimeTypesForURL (url : URL) : M (gset MimeType) :=
  seeds ← data_mimeTypesForURL url;
  converters_listTargetMimeTypes url (elements seeds).

(** The array of [string | null] is filtered at run time; the cast to
    [string[]] is not checked, so the set is one of [option string]. *)
Definition viewersForURL (url : URL) : M (gset (option string)) :=
  possible ← possibleMimeTypesForURL url;
  ret (list_to_set
         (filter (λ label, label ≠ None)
                 (extractViewerLabel <$> elements possible))).

(** The body of the [for await] loop of [convertByURL], with the
    variable [finalDataSet] ([None] while it is unassigned). *)
Fixpoint for_await (fuel : nat) (g : G) (finalDataSet : option dataset)
  : M (option dataset) :=
  match fuel with
  | O => λ r, mkRun OutOfFuel r []
  | S fuel' =>
      res ← iterator_next g;
      match res with
      | None => ret finalDataSet
      | Some (dataset, g') =>
          let finalDataSet := Some dataset in
          b ← data_contains dataset;
          (if negb b then data_publish dataset;; ret tt else ret tt);;
          for_await fuel' g' finalDataSet
      end
  end.

(** [return finalDataSet!]: the assertion is erased, [None] stands for
    [undefined]. *)
Definition convertByURL (fuel : nat) (url : URL) (targetMimeType : MimeType)
  : M (option dataset) :=
  sources ← data_filterByURL url;
  g ← converters_convert sources targetMimeType;
  for_await fuel g None.

Definition viewURL (fuel : nat) (url : URL) (label : string) : M unit :=
  viewer ← convertByURL fuel url (createViewerMimeType label);
  match viewer with
  | None => raise TypeError
  | Some v => call_data v
  end.

(** *** The conversion chain, as one call drives it

    [Chain g r steps e r'] describes the interaction of the iterator [g]
    with a consumer that, for each element, asks the store whether it
    contains the element and publishes it when it does not, before it
    resumes the iterator: [steps] lists the elements in the order they are
    produced, each with the answer of the store; [e] says how the sequence
    ends; [r'] is the registry state at that point.  [EndCut] ends the
    description of a sequence after any number of elements. *)

Inductive ChainEnd :=
| EndDone
| EndThrown (e : exn Err)
| EndPending
| EndCut.

Definition settle (d : dataset) (r : registry) : registry :=
  if contains (data_ r) d then r
  else mkDataRegistry (converters r) (publish (data_ r) d).2.

Inductive Chain
  : G → registry → list (dataset * bool) → ChainEnd → registry → Prop :=
| chain_cut g r : Chain g r [] EndCut r
| chain_done g r r' :
    next g r = (IDone, r') → Chain g r [] EndDone r'
| chain_throw g r e r' :
    next g r = (IThrow e, r') → Chain g r [] (EndThrown e) r'
| chain_pending g r r' :
    next g r = (IPending, r') → Chain g r [] EndPending r'
| chain_yield g r d g' r1 steps e r' :
    next g r = (IYield d g', r1) →
    Chain g' (settle d r1) steps e r' →
    Chain g r ((d, contains (data_ r1) d) :: steps) e r'.

(** The calls one element gives rise to, and the calls at the end. *)
Definition step_events (x : dataset * bool) : list Event :=
  [EvNext; EvYield x.1; EvContains x.1 x.2]
  ++ (if x.2 then [] else [EvPublish x.1]).

Definition end_events (e : ChainEnd) : list Event :=
  match e with
  | EndDone => [EvNext; EvDone]
  | EndThrown x => [EvNext; EvThrown x]
  | EndPending => [EvNext]
  | EndCut => []
  end.

Definition schedule (steps : list (dataset * bool)) (e : ChainEnd)
  : list Event :=
  concat (step_events <$> steps) ++ end_events e.

(** The order of the calls of one conversion, as the phases of the
    consumer: an element is requested only when every element produced so
    far is published or was found in the store; an element the store does
    not contain is published next, before anything else.  A sequence of
    calls may stop only between two elements, while a request is
    outstanding, or when the sequence has ended. *)
Inductive Phase :=
| Settled
| Requested
| Produced (d : dataset)
| Missing (d : dataset)
| Ended.

Inductive InOrder : Phase → list Event → Prop :=
| ord_settled : InOrder Settled []
| ord_waiting : InOrder Requested []
| ord_ended : InOrder Ended []
| ord_next tr : InOrder Requested tr → InOrder Settled (EvNext :: tr)
| ord_yield d tr : InOrder (Produced d) tr → InOrder Requested (EvYield d :: tr)
| ord_done tr : InOrder Ended tr → InOrder Requested (EvDone :: tr)
| ord_thrown x tr : InOrder Ended tr → InOrder Requested (EvThrown x :: tr)
| ord_present d tr :
    InOrder Settled tr → InOrder (Produced d) (EvContains d true :: tr)
| ord_absent d tr :
    InOrder (Missing d) tr → InOrder (Produced d) (EvContains d false :: tr)
| ord_publish d tr :
    InOrder Settled tr → InOrder (Missing d) (EvPublish d :: tr).

(** The value of [finalDataSet] after the elements [steps]. *)
Definition last_of (init : option dataset) (steps : list (dataset * bool))
  : option dataset :=
  match last steps with
  | Some x => Some x.1
  | None => init
  end.

Definition end_completion (e : ChainEnd) (v : option dataset)
  : Completion Err (option dataset) :=
  match e with
  | EndDone => Return v
  | EndThrown x => Raise x
  | EndPending => Pending
  | EndCut => OutOfFuel
  end.

(** What [viewURL] does after its conversion has run as [c]: it calls the
    payload of the dataset the conversion returned; on [undefined] the
    call raises [TypeError]; a conversion that did not return ends it. *)
Definition view_after (c : Run (option dataset)) : Run unit :=
  match completion c with
  | Return (Some v) =>
      mkRun (call (data v) (final c)).1 (call (data v) (final c)).2
            (events c ++ [EvCall v])
  | Return None => mkRun (Raise TypeError) (final c) (events c)
  | Raise e => mkRun (Raise e) (final c) (events c)
  | Pending => mkRun Pending (final c) (events c)
  | OutOfFuel => mkRun OutOfFuel (final c) (events c)
  end.

(** Projections of a list of observed calls. *)
Definition published (tr : list Event) : list dataset :=
  omap (λ ev, match ev with EvPublish d => Some d | _ => None end) tr.

Definition yielded (tr : list Event) : list dataset :=
  omap (λ ev, match ev with EvYield d => Some d | _ => None end) tr.

Definition resolved (tr : list Event) : list URL :=
  omap (λ ev, match ev with EvResolveDataSet u => Some u | _ => None end) tr.

Definition called (tr : list Event) : list dataset :=
  omap (λ ev, match ev with EvCall d => Some d | _ => None end) tr.

Definition asked (tr : list Event) : list dataset :=
  omap (λ ev, match ev with EvContains d _ => Some d | _ => None end) tr.

(** A store that contains what is published to it and loses nothing by a
    publication, with an iterator that removes nothing from the store. *)
Definition keeps_datasets : Prop :=
  (∀ (s : D) d, contains (publish s d).2 d = true) ∧
  (∀ (s : D) d d', contains s d' = true → contains (publish s d).2 d' = true) ∧
  (∀ (g : G) (r : registry) d',
     contains (data_ r) d' = true → contains (data_ (next g r).2) d' = true).

(** Calls of the body of the [for await] loop. *)
Definition is_loop_call (ev : Event) : bool :=
  match ev with
  | EvNext | EvYield _ | EvDone | EvThrown _
  | EvContains _ _ | EvPublish _ => true
  | _ => false
  end.

(** Calls that start or advance a conversion. *)
Definition is_conversion (ev : Event) : bool :=
  match ev with
  | EvConvert _ _ | EvNext | EvYield _ | EvDone | EvThrown _ | EvCall _ => true
  | _ => false
  end.

(** Calls that change a registry. *)
Definition is_mutation (ev : Event) : bool :=
  match ev with
  | EvPublish _ | EvNext | EvCall _ => true
  | _ => false
  end.

End Facade.

Arguments Event : clear implicits.
Arguments Run : clear implicits.
Arguments ChainEnd : clear implicits.
Arguments Phase : clear implicits.

(** ** Collaborators for running the facade

    The two registries, the resolvers and the viewer encoding are not part
    of [dataregistry.ts].  The instances below follow their description in
    the specification, so that the facade can be run on concrete inputs. *)

Module Fake.

(** A payload is plain data, or a viewer action ([() => Promise<void>])
    that completes, fails, or never completes. *)
Inductive Payload :=
| PData (s : string)
| PViewer (c : Completion string unit).

Definition Err := string.
Definition IDisposable := nat.

(** Modelled from the spec: the dataset store ([IDatasetRegistry]) "holds
    published datasets keyed by (URL, mime type); answers containment and
    enumeration queries".  The store is the list of the published datasets
    in the order of publication; the handle is the position. *)
Definition Store := list (Dataset Payload).

Definition same_key (d e : Dataset Payload) : bool :=
  bool_decide (url d = url e ∧ mimeType d = mimeType e).

Definition store_contains (s : Store) (d : Dataset Payload) : bool :=
  existsb (same_key d) s.

Definition store_publish (s : Store) (d : Dataset Payload)
  : IDisposable * Store :=
  (length s, s ++ [d]).

Definition store_filterByURL (s : Store) (u : URL) : list (Dataset Payload) :=
  filter (λ d, url d = u) s.

Definition store_mimeTypesForURL (s : Store) (u : URL) : gset MimeType :=
  list_to_set (mimeType <$> store_filterByURL s u).

#[global] Instance fake_datasets : IDatasetRegistry Payload IDisposable Store := {
  contains := store_contains;
  publish := store_publish;
  filterByURL := store_filterByURL;
  mimeTypesForURL := store_mimeTypesForURL
}.

(** Modelled from the spec: a converter is "a capability transforming a
    dataset of one mime type into another"; here it has one source mime
    type, one target mime type and a transformation of the payload that
    may fail with a message. *)
Record Converter := mkConverter {
  source : MimeType;
  target : MimeType;
  transform : Payload → Payload + Err
}.

Definition Converters := list Converter.

(** One round of converter applications from the mime types [known]. *)
Definition expand (cs : Converters) (known : gset MimeType) : gset MimeType :=
  known ∪ list_to_set (target <$> filter (λ c, source c ∈ known) cs).

(** Modelled from the spec: [listTargetMimeTypes] is the "reachability
    closure: the set of all mime types obtainable from a seed set via any
    number of converter applications".  A round that adds nothing ends the
    expansion, and each earlier round adds the target of a converter that
    had not applied before, so as many rounds as there are converters
    suffice. *)
Definition closure (cs : Converters) (seeds : list MimeType) : gset MimeType :=
  Nat.iter (length cs) (expand cs) (list_to_set seeds).

(** The mime types obtainable from the seeds by any number of converter
    applications, as a relation. *)
Inductive reachable (cs : Converters) (seeds : list MimeType)
  : MimeType → Prop :=
| reach_seed m : m ∈ seeds → reachable cs seeds m
| reach_step c :
    c ∈ cs → reachable cs seeds (source c) → reachable cs seeds (target c).

(** The converters that apply to one of the mime types [known]. *)
Definition applicable (cs : Converters) (known : gset MimeType)
  : list Converter :=
  filter (λ c, source c ∈ known) cs.

(** A sequence of converters leading from the mime type [from] to [to],
    by depth-first search over at most [fuel] applications. *)
Fixpoint find_path (fuel : nat) (cs : Converters) (from to : MimeType)
  : option (list Converter) :=
  if decide (from = to) then Some []
  else match fuel with
       | O => None
       | S fuel' =>
           foldr (λ c found,
                    if decide (source c = from) then
                      match find_path fuel' cs (target c) to with
                      | Some p => Some (c :: p)
                      | None => found
                      end
                    else found)
                 None cs
       end.

(** The first source dataset from which the target is reachable. *)
Fixpoint find_start (cs : Converters) (sources : list (Dataset Payload))
    (to : MimeType) : option (Dataset Payload * list Converter) :=
  match sources with
  | [] => None
  | d :: sources' =>
      match find_path (length cs) cs (mimeType d) to with
      | Some p => Some (d, p)
      | None => find_start cs sources' to
      end
  end.

(** The state of the asynchronous iterator: the dataset to yield next and
    the converters still to apply, or the current dataset after it has
    been yielded. *)
Inductive Iter :=
| IterStart (d : Dataset Payload) (todo : list Converter)
| IterAfter (d : Dataset Payload) (todo : list Converter)
| IterEmpty.

(** Modelled from the spec: [convert] "produces the step-by-step conversion
    chain", "starting from the dataset(s) already present for a URL and
    ending at the requested target mime type, where each element is
    reachable from the previous by exactly one converter application";
    it "must yield a final element equal to a dataset of targetMimeType on
    success, or terminate early on failure".  Without a path to the target
    the sequence ends at once. *)
Definition conv_convert (cs : Converters) (sources : list (Dataset Payload))
    (to : MimeType) : Iter :=
  match find_start cs sources to with
  | Some (d, p) => IterStart d p
  | None => IterEmpty
  end.

Definition conv_next (g : Iter) (r : DataRegistry Converters Store)
  : IteratorResult Payload Err Iter * DataRegistry Converters Store :=
  match g with
  | IterStart d todo => (IYield d (IterAfter d todo), r)
  | IterAfter d [] => (IDone, r)
  | IterAfter d (c :: todo) =>
      match transform c (data d) with
      | inl p =>
          let d' := mkDataset (target c) (url d) p in
          (IYield d' (IterAfter d' todo), r)
      | inr e => (IThrow (Thrown e), r)
      end
  | IterEmpty => (IDone, r)
  end.

#[global] Instance fake_converters
  : IConverterRegistry Payload Err Converters Store Iter := {
  listTargetMimeTypes cs _ seeds := closure cs seeds;
  convert := conv_convert;
  next := conv_next
}.

(** Modelled from the spec: a URL "resolves to mime type text/csv" (the
    scenario of the specification); the payload is the URL itself. *)
Definition csv : MimeType := "text/csv".

#[global] Instance fake_resolvers : Resolvers Payload := {
  resolveDataSet u := mkDataset csv u (PData u);
  resolveMimeType := csv
}.

(** Modelled from the spec: the viewer encoding is "a reversible encoding
    of a label into the pseudo mime-type namespace"; a label is encoded by
    a fixed prefix. *)
Definition viewer_prefix : string := "application/x.jupyter.viewer; label=".

Fixpoint strip_prefix (p s : string) : option string :=
  match p, s with
  | EmptyString, _ => Some s
  | String a p', String b s' =>
      if decide (a = b) then strip_prefix p' s' else None
  | String _ _, EmptyString => None
  end.

#[global] Instance fake_viewers : Viewers := {
  createViewerMimeType label := viewer_prefix +:+ label;
  extractViewerLabel m := strip_prefix viewer_prefix m
}.

(** Calling a payload that is not a function raises [TypeError]. *)
Definition payload_call (p : Payload) (r : DataRegistry Converters Store)
  : Completion Err unit * DataRegistry Converters Store :=
  match p with
  | PData _ => (Raise TypeError, r)
  | PViewer (Return _) => (Return tt, r)
  | PViewer (Raise e) => (Raise e, r)
  | PViewer Pending => (Pending, r)
  | PViewer OutOfFuel => (Pending, r)
  end.

#[global] Instance fake_callable : Callable Payload Err Converters Store := {
  call := payload_call
}.

(** *** Concrete inputs *)

Definition json : MimeType := "application/json".
Definition table : MimeType := viewer_prefix +:+ "Table".
Definition url_a : URL := "csv://data/a".

Definition csv_to_json : Converter :=
  mkConverter csv json (λ p, inl p).
Definition json_to_table : Converter :=
  mkConverter json table (λ _, inl (PViewer (Return tt))).
Definition json_broken : Converter :=
  mkConverter csv json (λ _, inr "malformed").

Definition empty_registry (cs : Converters) : DataRegistry Converters Store :=
  mkDataRegistry cs [].

Definition csv_ds : Dataset Payload := mkDataset csv url_a (PData url_a).
Definition json_ds : Dataset Payload := mkDataset json url_a (PData url_a).
Definition table_ds : Dataset Payload :=
  mkDataset table url_a (PViewer (Return tt)).

(** The registry after [registerURL url_a] on an empty store. *)
Definition registered (cs : Converters) : DataRegistry Converters Store :=
  mkDataRegistry cs [csv_ds].

End Fake.

(** * Properties of the facade *)

Section FacadeProperties.
Context {Payload Err IDisposable C D G : Type}.
Context `{!IDatasetRegistry Payload IDisposable D}.
Context `{!IConverterRegistry Payload Err C D G}.
Context `{!Resolvers Payload}.
Context `{!Viewers}.
Context `{!Callable Payload Err C D}.

Local Abbreviation dataset := (Dataset Payload).
Local Abbreviation registry := (DataRegistry C D).
Local Abbreviation event := (Event Payload Err).

Implicit Types (g : G) (r : registry) (d : dataset) (u : URL).
Implicit Types (steps : list (dataset * bool)) (e : ChainEnd Err).

(** ** The loop and the chain *)

Lemma last_of_cons (init : option dataset) x steps :
  last_of init (x :: steps) = last_of (Some x.1) steps.
Proof.
  unfold last_of. rewrite last_cons. by destruct (last steps).
Qed.

Lemma schedule_cons x steps e :
  schedule (x :: steps) e = step_events x ++ schedule steps e.
Proof. unfold schedule. by rewrite fmap_cons, concat_cons, <-(assoc_L (++)). Qed.

(** One turn of the loop on an element [d]. *)
Lemma for_await_yield fuel g r d g' r1 (fin : option dataset) :
  next g r = (IYield d g', r1) →
  for_await (S fuel) g fin r =
    let x := for_await fuel g' (Some d) (settle d r1) in
    mkRun (completion x) (final x)
          (step_events (d, contains (data_ r1) d) ++ events x).
Proof.
  intros Hn. cbn [for_await].
  unfold bind, iterator_next, data_contains, data_publish, settle, step_events.
  rewrite Hn. cbn.
  destruct (contains (data_ r1) d); cbn.
  - by destruct (for_await _ _ _ _) as [[]].
  - destruct (publish (data_ r1) d) as [h s]. cbn.
    by destruct (for_await _ _ _ _) as [[]].
Qed.

(** A chain that ends within the bound determines the run of the loop. *)
Lemma for_await_complete g r steps e r' :
  Chain g r steps e r' →
  ∀ fuel (fin : option dataset),
    (if e is EndCut then length steps = fuel else length steps < fuel) →
    for_await fuel g fin r =
      mkRun (end_completion e (last_of fin steps)) r' (schedule steps e).
Proof.
  induction 1 as [g r|g r r' Hn|g r x r' Hn|g r r' Hn
                 |g r d g' r1 steps e r' Hn Hch IH]; intros fuel fin Hf.
  - cbn in Hf. by subst fuel.
  - destruct fuel as [|fuel]; [cbn in Hf; lia|].
    cbn. unfold bind, iterator_next. by rewrite Hn.
  - destruct fuel as [|fuel]; [cbn in Hf; lia|].
    cbn. unfold bind, iterator_next. by rewrite Hn.
  - destruct fuel as [|fuel]; [cbn in Hf; lia|].
    cbn. unfold bind, iterator_next. by rewrite Hn.
  - destruct fuel as [|fuel]; [destruct e; cbn in Hf; lia|].
    rewrite (for_await_yield _ _ _ _ _ _ _ Hn).
    rewrite (IH fuel (Some d)) by (destruct e; cbn in Hf |- *; lia).
    by rewrite last_of_cons, schedule_cons.
Qed.

(** Every run of the loop follows a chain. *)
Lemma for_await_chain fuel : ∀ g r (fin : option dataset),
  ∃ steps e r',
    Chain g r steps e r' ∧
    (if e is EndCut then length steps = fuel else length steps < fuel) ∧
    for_await fuel g fin r =
      mkRun (end_completion e (last_of fin steps)) r' (schedule steps e).
Proof.
  induction fuel as [|fuel IH]; intros g r fin.
  - exists [], EndCut, r. split; [constructor|done].
  - destruct (next g r) as [[d g'| |x|] r1] eqn:Hn.
    + destruct (IH g' (settle d r1) (Some d)) as (steps & e & r' & Hch & Hl & Hrun).
      exists ((d, contains (data_ r1) d) :: steps), e, r'.
      split; [by econstructor|].
      split; [destruct e; cbn in Hl |- *; lia|].
      rewrite (for_await_yield _ _ _ _ _ _ _ Hn), Hrun.
      by rewrite last_of_cons, schedule_cons.
    + exists [], EndDone, r1. split; [by constructor|]. split; [cbn; lia|].
      cbn. unfold bind, iterator_next. by rewrite Hn.
    + exists [], (EndThrown x), r1. split; [by constructor|]. split; [cbn; lia|].
      cbn. unfold bind, iterator_next. by rewrite Hn.
    + exists [], EndPending, r1. split; [by constructor|]. split; [cbn; lia|].
      cbn. unfold bind, iterator_next. by rewrite Hn.
Qed.

Lemma yielded_schedule steps e : yielded (schedule steps e) = steps.*1.
Proof.
  induction steps as [|[d b] steps IH].
  - by destruct e.
  - rewrite schedule_cons. unfold yielded in *. rewrite omap_app, IH.
    by destruct b.
Qed.

Lemma published_schedule steps e :
  published (schedule steps e) = (filter (λ x, x.2 = false) steps).*1.
Proof.
  induction steps as [|[d b] steps IH].
  - by destruct e.
  - rewrite schedule_cons. unfold published in *. rewrite omap_app, IH.
    by destruct b.
Qed.

Lemma schedule_in_order steps e : InOrder Settled (schedule steps e).
Proof.
  induction steps as [|[d b] steps IH].
  - destruct e; repeat constructor.
  - rewrite schedule_cons. destruct b; cbn; by repeat constructor.
Qed.

(** The run of [convertByURL] in terms of its loop. *)
Lemma convertByURL_unfold fuel u (t : MimeType) r :
  convertByURL fuel u t r =
    let sources := filterByURL (data_ r) u in
    let x := for_await fuel (convert (converters r) sources t) None r in
    mkRun (completion x) (final x)
          ([EvFilterByURL u; EvConvert sources t] ++ events x).
Proof.
  unfold convertByURL, bind, data_filterByURL, converters_convert. cbn.
  by destruct (for_await _ _ _ _) as [[]].
Qed.

(** ** hasConversions *)

(** C1. [hasConversions u] returns [true] exactly when the set that
    [listTargetMimeTypes] gives for the single seed [resolveMimeType] has
    more than one element.  The only collaborator call is that one: the
    answer is the same whatever the dataset store holds. *)
Theorem hasConversions_iff_closure u r :
  let x := hasConversions u r in
  let targets := listTargetMimeTypes (converters r) u [resolveMimeType] in
  (∃ b : bool, completion x = Return b ∧ (b = true ↔ 1 < size targets)) ∧
  events x = [EvListTargetMimeTypes u [resolveMimeType]] ∧
  final x = r ∧
  ∀ s : D, completion (hasConversions u (mkDataRegistry (converters r) s))
           = completion x.
Proof.
  cbn. repeat split; try done.
  eexists. split; [reflexivity|]. apply bool_decide_eq_true.
Qed.

(** ** registerURL *)

(** C4. [registerURL u] resolves [u] once and starts no conversion.  When
    the store contains the resolved dataset it returns [null], publishes
    nothing and leaves the registry as it is; otherwise it publishes that
    dataset and returns the handle of the store.  For a store that contains
    what was published to it, a second call returns [null] and the two
    calls together have published the dataset once. *)
Theorem registerURL_idempotent u r :
  (∀ (s : D) d, contains (publish s d).2 d = true) →
  let d := resolveDataSet u in
  let x := registerURL (Err:=Err) u r in
  let y := registerURL (Err:=Err) u (final x) in
  resolved (events x) = [u] ∧
  Forall (λ ev, is_conversion ev = false) (events x) ∧
  (if contains (data_ r) d
   then completion x = Return None ∧ final x = r ∧ published (events x) = []
   else completion x = Return (Some (publish (data_ r) d).1) ∧
        final x = mkDataRegistry (converters r) (publish (data_ r) d).2 ∧
        published (events x) = [d] ∧
        completion y = Return None ∧ final y = final x ∧
        published (events x ++ events y) = [d]).
Proof.
  intros Hlaw. cbn zeta.
  unfold registerURL, bind, call_resolveDataSet, data_contains, data_publish.
  cbn. destruct (contains (data_ r) (resolveDataSet u)) eqn:Hc; cbn.
  - by repeat constructor.
  - pose proof (Hlaw (data_ r) (resolveDataSet u)) as Hp.
    destruct (publish (data_ r) (resolveDataSet u)) as [h s].
    cbn in *. rewrite Hp. cbn. by repeat constructor.
Qed.

(** ** The reachability queries *)


(** ** viewersForURL *)

(** C8. The set [viewersForURL u] returns holds exactly the labels that
    [extractViewerLabel] gives on the elements of
    [possibleMimeTypesForURL u]: it has no [null], and the registries are
    left as they are. *)
Theorem viewersForURL_labels u r :
  ∃ (possible : gset MimeType) (viewers : gset (option string)),
    completion (possibleMimeTypesForURL u r) = Return possible ∧
    completion (viewersForURL u r) = Return viewers ∧
    (∀ x, x ∈ viewers ↔
          ∃ l m, x = Some l ∧ m ∈ possible ∧ extractViewerLabel m = Some l) ∧
    (None ∉ viewers) ∧
    final (viewersForURL u r) = r ∧
    events (viewersForURL u r) = events (possibleMimeTypesForURL u r) ∧
    Forall (λ ev, is_mutation ev = false) (events (viewersForURL u r)).
Proof.
  eexists _, _. split; [reflexivity|]. split; [reflexivity|].
  assert (∀ x, x ∈ (list_to_set
             (filter (λ label, label ≠ None)
                (extractViewerLabel <$>
                   elements (listTargetMimeTypes (converters r) u
                      (elements (mimeTypesForURL (data_ r) u)))))
             : gset (option string)) ↔
          ∃ l m, x = Some l ∧
                 m ∈ listTargetMimeTypes (converters r) u
                       (elements (mimeTypesForURL (data_ r) u)) ∧
                 extractViewerLabel m = Some l) as Hmem.
  { intros x. rewrite elem_of_list_to_set, list_elem_of_filter, list_elem_of_fmap.
    split.
    - intros [Hx (m & -> & Hm)]. apply elem_of_elements in Hm.
      destruct (extractViewerLabel m) as [l|] eqn:Hl; [|done]. by exists l, m.
    - intros (l & m & -> & Hm & Hl). split; [done|].
      exists m. split; [done|]. by apply elem_of_elements. }
  split; [exact Hmem|]. split.
  - intros Hin. by apply Hmem in Hin as (l & m & ? & _).
  - cbn. repeat split. by repeat constructor.
Qed.

(** ** convertByURL *)


(** C5. When the sequence ends after the elements [steps], [convertByURL]
    returns the last of them; a sequence of one element gives that
    element. *)
Theorem convertByURL_returns_last fuel u (t : MimeType) r steps r' :
  Chain (convert (converters r) (filterByURL (data_ r) u) t) r
        steps EndDone r' →
  length steps < fuel →
  completion (convertByURL fuel u t r) = Return (last steps.*1) ∧
  final (convertByURL fuel u t r) = r' ∧
  match steps with
  | [(d, _)] => completion (convertByURL fuel u t r) = Return (Some d)
  | _ => True
  end.
Proof.
  intros Hch Hf. rewrite convertByURL_unfold. cbn zeta.
  rewrite (for_await_complete _ _ _ _ _ Hch fuel None Hf). cbn.
  assert (last_of None steps = last steps.*1) as ->.
  { unfold last_of. rewrite fmap_last. by destruct (last steps). }
  split; [done|]. split; [done|]. by destruct steps as [|[d b] [|]].
Qed.

(** C10. When the sequence ends before it has produced an element,
    [convertByURL] returns [undefined]: it completes without a dataset and
    without an exception, and has published nothing. *)
Theorem convertByURL_empty_sequence fuel u (t : MimeType) r r' :
  next (convert (converters r) (filterByURL (data_ r) u) t) r = (IDone, r') →
  let x := convertByURL (S fuel) u t r in
  completion x = Return None ∧
  (∀ exc : exn Err, completion x ≠ Raise exc) ∧
  yielded (events x) = [] ∧
  published (events x) = [] ∧
  final x = r'.
Proof.
  intros Hn. cbn zeta. rewrite convertByURL_unfold. cbn zeta.
  rewrite (for_await_complete _ _ [] EndDone r' (chain_done _ _ _ Hn)
             (S fuel) None) by (cbn; lia).
  done.
Qed.

(** ** viewURL *)

Lemma viewURL_unfold fuel u (l : string) r :
  viewURL fuel u l r =
    view_after (convertByURL fuel u (createViewerMimeType l) r).
Proof.
  unfold viewURL, view_after, bind, call_data, raise.
  destruct (convertByURL _ _ _ _) as [[[v|]|e| |] r1 tr]; cbn;
    rewrite ?app_nil_r; try done.
  by destruct (call (data v) r1).
Qed.

(** C9. [viewURL u l] first runs [convertByURL u (createViewerMimeType l)],
    with all its calls; when that returns a dataset it then calls the
    payload of the dataset, and it completes as that call completes, in
    the registry state that call leaves.  When the conversion does not
    return a dataset, no payload is called. *)
Theorem viewURL_steps fuel u (l : string) r :
  let c := convertByURL fuel u (createViewerMimeType l) r in
  let x := viewURL fuel u l r in
  (∃ rest, events x = events c ++ rest) ∧
  match completion c with
  | Return (Some v) =>
      events x = events c ++ [EvCall v] ∧
      completion x = (call (data v) (final c)).1 ∧
      final x = (call (data v) (final c)).2
  | Return None =>
      events x = events c ∧ completion x = Raise TypeError ∧ final x = final c
  | Raise e =>
      events x = events c ∧ completion x = Raise e ∧ final x = final c
  | Pending | OutOfFuel =>
      events x = events c ∧ completion x ≠ Return tt ∧ final x = final c
  end.
Proof.
  cbn zeta. rewrite viewURL_unfold. unfold view_after.
  destruct (convertByURL _ _ _ _) as [[[v|]|e| |] r1 tr]; cbn;
    (split; [first [by eexists | by exists []; rewrite app_nil_r]|done]).
Qed.

(** How [convertByURL u t] completes is decided by how the sequence
    ends, whatever the mime types of its elements: when the
    sequence is done, the call returns its last element, or [undefined]
    after no element; an exception of the sequence is the exception of the
    call.  For a viewer mime type, [viewURL] raises that same exception,
    raises [TypeError] on [undefined], and otherwise calls the payload of
    the last element. *)
Theorem convertByURL_completes_as_sequence fuel u (t : MimeType) (l : string)
    r steps e r' :
  Chain (convert (converters r) (filterByURL (data_ r) u) t) r steps e r' →
  e ≠ EndCut →
  length steps < fuel →
  completion (convertByURL fuel u t r) = end_completion e (last steps.*1) ∧
  final (convertByURL fuel u t r) = r' ∧
  (if decide (t = createViewerMimeType l) then
     completion (viewURL fuel u l r) =
       match e with
       | EndDone =>
           match last steps.*1 with
           | Some v => (call (data v) r').1
           | None => Raise TypeError
           end
       | EndThrown x => Raise x
       | EndPending => Pending
       | EndCut => OutOfFuel
       end
   else True).
Proof.
  intros Hch He Hf.
  assert (convertByURL fuel u t r =
          mkRun (end_completion e (last steps.*1)) r'
                ([EvFilterByURL u; EvConvert (filterByURL (data_ r) u) t]
                   ++ schedule steps e)) as Hrun.
  { rewrite convertByURL_unfold. cbn zeta.
    rewrite (for_await_complete _ _ _ _ _ Hch fuel None)
      by (by destruct e).
    cbn. unfold last_of. rewrite fmap_last. by destruct (last steps). }
  rewrite Hrun. split; [done|]. split; [done|].
  case_decide as Ht; [|done]. subst t.
  rewrite viewURL_unfold, Hrun. unfold view_after. cbn.
  destruct e; cbn; try done. by destruct (last steps.*1).
Qed.

End FacadeProperties.

(** * The modelled collaborators *)

Module FakeProperties.
Import Fake.

(** ** The store *)

Lemma store_contains_publish (s : Store) (d : Dataset Payload) :
  contains (publish s d).2 d = true.
Proof.
  cbn. unfold store_contains. rewrite existsb_app. cbn.
  unfold same_key. rewrite bool_decide_eq_true_2 by done.
  by rewrite orb_true_r.
Qed.

(** ** The reachability closure *)

Lemma expand_applicable cs X :
  expand cs X = X ∪ list_to_set (target <$> applicable cs X).
Proof. done. Qed.

Lemma expand_extensive cs X : X ⊆ expand cs X.
Proof. unfold expand. set_solver. Qed.

Lemma iter_expand_mono cs X n : X ⊆ Nat.iter n (expand cs) X.
Proof.
  induction n as [|n IH]; [done|]. cbn.
  etrans; [exact IH|apply expand_extensive].
Qed.

Lemma closure_extensive cs seeds m : m ∈ seeds → m ∈ closure cs seeds.
Proof.
  intros Hm. apply (iter_expand_mono cs _ (length cs)).
  by apply elem_of_list_to_set.
Qed.

Lemma closure_nil cs : closure cs [] = ∅.
Proof.
  unfold closure. generalize (length cs) as n. intros n.
  induction n as [|n IH]; [done|].
  rewrite Nat.iter_succ, IH. unfold expand.
  apply set_eq. intros m.
  rewrite elem_of_union, elem_of_list_to_set, list_elem_of_fmap.
  split; [|set_solver]. intros [?|(c & _ & Hc)]; [done|].
  apply list_elem_of_filter in Hc as [Hc _]. set_solver.
Qed.

Lemma closure_sound cs seeds m : m ∈ closure cs seeds → reachable cs seeds m.
Proof.
  unfold closure. generalize (length cs) as n. intros n. revert m.
  induction n as [|n IH]; intros m; cbn.
  - intros Hm%elem_of_list_to_set. by constructor.
  - unfold expand at 1. rewrite elem_of_union, elem_of_list_to_set.
    intros [Hm|Hm]; [by apply IH|].
    apply list_elem_of_fmap in Hm as (c & -> & Hc).
    apply list_elem_of_filter in Hc as [Hsrc Hc].
    apply reach_step; [done|]. by apply IH.
Qed.

(** Two filters of a list, one accepting what the other accepts. *)
Lemma filter_length_le {A} (P Q : A → Prop)
    `{!∀ x, Decision (P x)} `{!∀ x, Decision (Q x)} (l : list A) :
  (∀ x, P x → Q x) →
  length (filter P l) ≤ length (filter Q l) ∧
  (length (filter P l) = length (filter Q l) → filter P l = filter Q l).
Proof.
  intros HPQ. induction l as [|x l [IH1 IH2]]; [done|].
  destruct (decide (P x)) as [HP|HP].
  - rewrite (filter_cons_True P) by done.
    rewrite (filter_cons_True Q) by auto. cbn.
    split; [lia|]. intros Hl. f_equal. apply IH2. lia.
  - rewrite (filter_cons_False P) by done.
    destruct (decide (Q x)) as [HQ|HQ].
    + rewrite (filter_cons_True Q) by done. cbn. split; [lia|]. lia.
    + rewrite (filter_cons_False Q) by done. done.
Qed.

Lemma applicable_mono cs (X Y : gset MimeType) :
  X ⊆ Y →
  length (applicable cs X) ≤ length (applicable cs Y) ∧
  (length (applicable cs X) = length (applicable cs Y) →
   applicable cs X = applicable cs Y).
Proof.
  intros HXY. unfold applicable.
  apply (filter_length_le (λ c, source c ∈ X) (λ c, source c ∈ Y)).
  intros c. apply HXY.
Qed.

(** A round that applies no new converter adds nothing. *)
Lemma expand_stable cs X :
  applicable cs (expand cs X) = applicable cs X →
  expand cs (expand cs X) = expand cs X.
Proof.
  intros Heq. rewrite (expand_applicable cs (expand cs X)), Heq.
  rewrite expand_applicable.
  by rewrite <-(assoc_L (∪)), (idemp_L (∪)).
Qed.

(** After [k] rounds the expansion has stopped, or more than [k]
    converters apply. *)
Lemma expand_progress cs X k :
  let Xk := Nat.iter k (expand cs) X in
  expand cs Xk = Xk ∨ k < length (applicable cs Xk).
Proof.
  induction k as [|k IH]; cbn zeta.
  - change (Nat.iter 0 (expand cs) X) with X.
    destruct (applicable cs X) as [|c l] eqn:Happ.
    + left. rewrite expand_applicable, Happ. cbn.
      by rewrite (right_id_L ∅ (∪)).
    + right. cbn. lia.
  - cbn zeta in IH. rewrite Nat.iter_succ.
    set (Xk := Nat.iter k (expand cs) X) in *.
    destruct IH as [Hst|Hlt]; [left; by rewrite !Hst|].
    destruct (applicable_mono cs Xk (expand cs Xk) (expand_extensive cs Xk))
      as [Hle Heq].
    destruct (decide (length (applicable cs Xk)
                      = length (applicable cs (expand cs Xk)))) as [Hl|Hl].
    + left. apply expand_stable. symmetry. by apply Heq.
    + right. lia.
Qed.

Lemma closure_closed cs seeds :
  expand cs (closure cs seeds) = closure cs seeds.
Proof.
  destruct (expand_progress cs (list_to_set seeds) (length cs)) as [Hst|Hlt];
    [exact Hst|].
  exfalso. cbn zeta in Hlt. unfold applicable in Hlt.
  apply Nat.lt_nge in Hlt. apply Hlt, length_filter.
Qed.

Lemma closure_complete cs seeds m : reachable cs seeds m → m ∈ closure cs seeds.
Proof.
  induction 1 as [m Hm|c Hc Hsrc IH]; [by apply closure_extensive|].
  rewrite <-closure_closed. unfold expand.
  apply elem_of_union_r, elem_of_list_to_set, list_elem_of_fmap.
  exists c. split; [done|]. by apply list_elem_of_filter.
Qed.

(** ** possibleMimeTypesForURL on the modelled converter graph *)

(** C7. With the modelled closure, [possibleMimeTypesForURL u] asks the
    store for the mime types of [u] and returns the closure of exactly
    these seeds: the set of the mime types reachable from them.  Every
    mime type of [u] in the store is in it. *)
Theorem possibleMimeTypesForURL_superset
    (cs : Converters) (s : Store) (u : URL) :
  let seeds := elements (mimeTypesForURL s u) in
  let x := possibleMimeTypesForURL u (mkDataRegistry cs s) in
  completion x = Return (closure cs seeds) ∧
  events x = [EvMimeTypesForURL u; EvListTargetMimeTypes u seeds] ∧
  (∀ m, m ∈ closure cs seeds ↔ reachable cs seeds m) ∧
  mimeTypesForURL s u ⊆ closure cs seeds.
Proof.
  cbn zeta. split; [done|]. split; [done|]. split.
  - intros m. split; [apply closure_sound|apply closure_complete].
  - intros m Hm. by apply closure_extensive, elem_of_elements.
Qed.

(** ** Runs on concrete inputs *)


(** C2, where the code departs from it.  With a converter to [json] only,
    no chain leads from [csv] to the viewer mime type [table], and the
    sequence ends without an element.  [convertByURL] then returns its
    unassigned [finalDataSet], that is [undefined], and raises nothing,
    against its own assertion [finalDataSet!] and its return type;
    [viewURL] fails, not with an exception of the conversion, but with the
    [TypeError] of the call on [undefined]. *)
Lemma convertByURL_unreachable_returns_undefined :
  Chain (convert [csv_to_json]
           (filterByURL (data_ (registered [csv_to_json])) url_a) table)
        (registered [csv_to_json]) [] EndDone (registered [csv_to_json]) ∧
  yielded (events (convertByURL 5 url_a table (registered [csv_to_json])))
    = [] ∧
  completion (convertByURL 5 url_a table (registered [csv_to_json]))
    = Return None ∧
  completion (viewURL 5 url_a "Table" (registered [csv_to_json]))
    = Raise TypeError.
Proof. split; [by constructor|by vm_compute]. Qed.

(** Witness of C4: registering [url_a] twice on the empty store. *)
Lemma registerURL_idempotent_witness :
  (∀ (s : Store) d, contains (publish s d).2 d = true) ∧
  completion (registerURL (Err:=Err) url_a
                (final (registerURL (Err:=Err) url_a (empty_registry []))))
    = Return None ∧
  published (events (registerURL (Err:=Err) url_a (empty_registry []))
             ++ events (registerURL (Err:=Err) url_a
                          (final (registerURL (Err:=Err) url_a
                                    (empty_registry [])))))
    = [csv_ds].
Proof.
  split; [exact store_contains_publish|].
  pose proof (registerURL_idempotent (Err:=Err) url_a (empty_registry [])
                store_contains_publish) as H.
  cbn zeta in H. destruct H as (_ & _ & H).
  change (contains (data_ (empty_registry [])) (resolveDataSet url_a))
    with false in H.
  destruct H as (_ & _ & _ & Hret & _ & Hpub). split; [exact Hret|exact Hpub].
Defined.

(** Witness of C5: the chain from [csv] to [json]. *)
Lemma convertByURL_returns_last_witness :
  completion (convertByURL 5 url_a json (registered [csv_to_json]))
    = Return (Some json_ds).
Proof.
  refine (proj1 (convertByURL_returns_last 5 url_a json
                   (registered [csv_to_json])
                   [(csv_ds, true); (json_ds, false)]
                   (mkDataRegistry [csv_to_json] [csv_ds; json_ds]) _ _)).
  - refine (chain_yield (IterStart csv_ds [csv_to_json])
              (registered [csv_to_json]) csv_ds
              (IterAfter csv_ds [csv_to_json]) (registered [csv_to_json])
              [(json_ds, false)] EndDone _ eq_refl _).
    refine (chain_yield (IterAfter csv_ds [csv_to_json])
              (registered [csv_to_json]) json_ds
              (IterAfter json_ds []) (registered [csv_to_json])
              [] EndDone _ eq_refl _).
    exact (chain_done (IterAfter json_ds []) _ _ eq_refl).
  - cbn. lia.
Defined.

(** Witness of C10: a conversion on the empty store. *)
Lemma convertByURL_empty_sequence_witness :
  completion (convertByURL 1 url_a json (empty_registry [csv_to_json]))
    = Return None.
Proof.
  exact (proj1 (convertByURL_empty_sequence 0 url_a json
                  (empty_registry [csv_to_json])
                  (empty_registry [csv_to_json]) eq_refl)).
Defined.

(** Two runs of the lemma on how a conversion completes: a sequence that
    is done without a dataset of the target mime type, and a converter
    that fails. *)
Lemma convertByURL_completes_as_sequence_witness :
  completion (convertByURL 5 url_a table (registered [csv_to_json]))
    = Return None ∧
  completion (convertByURL 5 url_a json (registered [json_broken]))
    = Raise (Thrown "malformed").
Proof.
  split.
  - refine (proj1 (convertByURL_completes_as_sequence 5 url_a table "Table"
                     (registered [csv_to_json]) [] EndDone
                     (registered [csv_to_json]) _ _ _)).
    + exact (chain_done IterEmpty _ _ eq_refl).
    + discriminate.
    + cbn. lia.
  - refine (proj1 (convertByURL_completes_as_sequence 5 url_a json "Table"
                     (registered [json_broken])
                     [(csv_ds, true)] (EndThrown (Thrown "malformed"))
                     (registered [json_broken]) _ _ _)).
    + refine (chain_yield (IterStart csv_ds [json_broken])
                (registered [json_broken]) csv_ds
                (IterAfter csv_ds [json_broken]) (registered [json_broken])
                [] _ _ eq_refl _).
      exact (chain_throw (IterAfter csv_ds [json_broken]) _ _ _ eq_refl).
    + discriminate.
    + cbn. lia.
Defined.

(** ** The scenarios of the specification *)

(** No converter: [url_a] has no conversion, and its only mime type is
    [text/csv]. *)
Example scenario_no_converter :
  completion (hasConversions url_a (registered [])) = Return false ∧
  completion (possibleMimeTypesForURL url_a (registered []))
    = Return {[csv]}.
Proof. by vm_compute. Qed.

(** A converter from [text/csv] to [application/json]: the conversion
    publishes the one new dataset and returns it; a second conversion
    publishes nothing and returns the same dataset. *)
Example scenario_csv_to_json :
  completion (hasConversions url_a (registered [csv_to_json])) = Return true ∧
  published (events (convertByURL 5 url_a json (registered [csv_to_json])))
    = [json_ds] ∧
  completion (convertByURL 5 url_a json (registered [csv_to_json]))
    = Return (Some json_ds) ∧
  published
    (events (convertByURL 5 url_a json
               (final (convertByURL 5 url_a json (registered [csv_to_json])))))
    = [] ∧
  completion (convertByURL 5 url_a json
                (final (convertByURL 5 url_a json (registered [csv_to_json]))))
    = Return (Some json_ds).
Proof. by vm_compute. Qed.

(** The target is a mime type of [url_a] in the store: the sequence is
    the dataset of the store alone, found present and not published. *)
Example scenario_target_present :
  events (convertByURL 5 url_a csv (registered [csv_to_json]))
    = [EvFilterByURL url_a; EvConvert [csv_ds] csv;
       EvNext; EvYield csv_ds; EvContains csv_ds true; EvNext; EvDone] ∧
  completion (convertByURL 5 url_a csv (registered [csv_to_json]))
    = Return (Some csv_ds).
Proof. by vm_compute. Qed.

(** A chain to a viewer: [viewURL] publishes the two datasets of the chain
    and calls the payload of the viewer dataset last. *)
Example scenario_view_table :
  completion (viewURL 5 url_a "Table"
                (registered [csv_to_json; json_to_table])) = Return tt ∧
  published (events (viewURL 5 url_a "Table"
                       (registered [csv_to_json; json_to_table])))
    = [json_ds; table_ds] ∧
  last (events (viewURL 5 url_a "Table"
                  (registered [csv_to_json; json_to_table])))
    = Some (EvCall table_ds).
Proof. by vm_compute. Qed.

End FakeProperties.

(** * Further properties of the facade *)

Section FacadeFrame.
Context {Payload Err IDisposable C D G : Type}.
Context `{!IDatasetRegistry Payload IDisposable D}.
Context `{!IConverterRegistry Payload Err C D G}.
Context `{!Resolvers Payload}.
Context `{!Viewers}.
Context `{!Callable Payload Err C D}.

Local Abbreviation dataset := (Dataset Payload).
Local Abbreviation registry := (DataRegistry C D).

Implicit Types (g : G) (r : registry) (d : dataset) (u : URL).
Implicit Types (steps : list (dataset * bool)) (e : ChainEnd Err).

(** ** The calls of a conversion *)

Lemma schedule_loop_calls steps e :
  Forall (λ ev, is_loop_call ev = true) (schedule steps e).
Proof.
  induction steps as [|[d b] steps IH].
  - destruct e; by repeat constructor.
  - rewrite schedule_cons.
    apply Forall_app. split; [|done]. destruct b; by repeat constructor.
Qed.

Lemma called_schedule steps e : called (schedule steps e) = [].
Proof.
  induction steps as [|[d b] steps IH].
  - by destruct e.
  - rewrite schedule_cons. unfold called in *. rewrite omap_app, IH.
    by destruct b.
Qed.

Lemma resolved_schedule steps e : resolved (schedule steps e) = [].
Proof.
  induction steps as [|[d b] steps IH].
  - by destruct e.
  - rewrite schedule_cons. unfold resolved in *. rewrite omap_app, IH.
    by destruct b.
Qed.

Lemma asked_schedule steps e : asked (schedule steps e) = steps.*1.
Proof.
  induction steps as [|[d b] steps IH].
  - by destruct e.
  - rewrite schedule_cons. unfold asked in *. rewrite omap_app, IH.
    by destruct b.
Qed.

Lemma not_contained_sublist steps :
  (filter (λ x, x.2 = false) steps).*1 `sublist_of` steps.*1.
Proof. apply fmap_sublist, sublist_filter. Qed.

(** The run of [convertByURL] along the chain of its iterator. *)
Lemma convertByURL_chain fuel u (t : MimeType) r :
  ∃ steps e r',
    Chain (convert (converters r) (filterByURL (data_ r) u) t) r steps e r' ∧
    (if e is EndCut then length steps = fuel else length steps < fuel) ∧
    convertByURL fuel u t r =
      mkRun (end_completion e (last_of None steps)) r'
            ([EvFilterByURL u; EvConvert (filterByURL (data_ r) u) t]
               ++ schedule steps e).
Proof.
  destruct (for_await_chain fuel
              (convert (converters r) (filterByURL (data_ r) u) t) r None)
    as (steps & e & r' & Hch & Hl & Hrun).
  exists steps, e, r'. split; [done|]. split; [done|].
  rewrite convertByURL_unfold. cbn zeta. by rewrite Hrun.
Qed.

(** X5. After [filterByURL] and [convert], every call of [convertByURL] is
    a call of its loop.  It calls no payload and resolves no URL; it asks
    the store once about each element, in the order of production, and
    what it publishes is a subsequence of what the iterator produced. *)
Theorem convertByURL_only_converts fuel u (t : MimeType) r :
  let x := convertByURL fuel u t r in
  (∃ tr, events x
         = EvFilterByURL u :: EvConvert (filterByURL (data_ r) u) t :: tr ∧
         Forall (λ ev, is_loop_call ev = true) tr) ∧
  called (events x) = [] ∧
  resolved (events x) = [] ∧
  asked (events x) = yielded (events x) ∧
  published (events x) `sublist_of` yielded (events x).
Proof.
  cbn zeta.
  destruct (convertByURL_chain fuel u t r) as (steps & e & r' & _ & _ & ->).
  cbn [events]. split; [|split; [|split; [|split]]].
  - eexists. split; [reflexivity|]. apply schedule_loop_calls.
  - unfold called. rewrite omap_app. apply called_schedule.
  - unfold resolved. rewrite omap_app. apply resolved_schedule.
  - unfold asked, yielded. rewrite !omap_app. cbn.
    fold (asked (schedule steps e)). fold (yielded (schedule steps e)).
    by rewrite asked_schedule, yielded_schedule.
  - unfold published, yielded. rewrite !omap_app. cbn.
    fold (published (schedule steps e)). fold (yielded (schedule steps e)).
    rewrite published_schedule, yielded_schedule.
    apply not_contained_sublist.
Qed.

(** X6. When the iterator throws after the elements [steps], the call
    raises that exception as its last call, and nothing is undone: the
    elements the store did not contain have been published, and the
    registry is left as it was when the iterator threw. *)
Theorem convertByURL_failure_keeps_publications
    fuel u (t : MimeType) r steps (exc : exn Err) r' :
  Chain (convert (converters r) (filterByURL (data_ r) u) t) r
        steps (EndThrown exc) r' →
  length steps < fuel →
  let x := convertByURL fuel u t r in
  completion x = Raise exc ∧
  final x = r' ∧
  yielded (events x) = steps.*1 ∧
  published (events x) = (filter (λ s, s.2 = false) steps).*1 ∧
  last (events x) = Some (EvThrown exc).
Proof.
  intros Hch Hf. cbn zeta. rewrite convertByURL_unfold. cbn zeta.
  rewrite (for_await_complete _ _ _ _ _ Hch fuel None Hf). cbn [completion final events end_completion].
  split; [done|]. split; [done|]. split; [|split].
  - unfold yielded. rewrite omap_app. apply yielded_schedule.
  - unfold published. rewrite omap_app. apply published_schedule.
  - unfold schedule. rewrite !app_assoc. cbn [end_events].
    change [EvNext; EvThrown exc]
      with ([EvNext (Payload:=Payload)] ++ [EvThrown exc]).
    rewrite app_assoc. apply last_snoc.
Qed.

(** ** registerURL and the queries *)

(** X1. For a URL whose only mime type in the store is [resolveMimeType],
    [hasConversions] says whether [possibleMimeTypesForURL] has more than
    one element. *)
Theorem hasConversions_agrees_with_possible u r :
  mimeTypesForURL (data_ r) u = {[resolveMimeType]} →
  ∃ possible : gset MimeType,
    completion (possibleMimeTypesForURL u r) = Return possible ∧
    completion (hasConversions u r)
      = Return (bool_decide (1 < size possible)).
Proof.
  intros Hm. eexists. split; [reflexivity|].
  cbn. by rewrite Hm, elements_singleton.
Qed.

(** X2. [registerURL] leaves the converter registry as it is, so the
    answer of [hasConversions], for any URL, is the same before and after
    a registration. *)
Theorem registerURL_keeps_converters u u' r :
  let x := registerURL (Err:=Err) u r in
  converters (final x) = converters r ∧
  completion (hasConversions u' (final x))
    = completion (hasConversions u' r).
Proof.
  cbn zeta. unfold registerURL, bind, call_resolveDataSet, data_contains,
    data_publish. cbn.
  destruct (contains (data_ r) (resolveDataSet u)); cbn; [done|].
  by destruct (publish (data_ r) (resolveDataSet u)).
Qed.

(** ** viewersForURL *)

Lemma size_list_to_set_le `{Countable A} (l : list A) :
  size (list_to_set l : gset A) ≤ length l.
Proof.
  induction l as [|x l IH]; [by rewrite list_to_set_nil, size_empty|].
  rewrite list_to_set_cons, size_union_alt, size_singleton. cbn.
  assert ((list_to_set l ∖ {[x]} : gset A) ⊆ list_to_set l) as Hsub.
  { intros y Hy. by apply elem_of_difference in Hy as [? _]. }
  apply subseteq_size in Hsub. lia.
Qed.

(** X3. [viewersForURL] never has more labels than
    [possibleMimeTypesForURL] has mime types, and it is empty when no mime
    type is reachable. *)
Theorem viewersForURL_bounded u r :
  ∃ (possible : gset MimeType) (viewers : gset (option string)),
    completion (possibleMimeTypesForURL u r) = Return possible ∧
    completion (viewersForURL u r) = Return viewers ∧
    size viewers ≤ size possible ∧
    (if decide (possible = ∅) then viewers = ∅ else True).
Proof.
  eexists _, _. split; [reflexivity|]. split; [reflexivity|].
  set (P := listTargetMimeTypes (converters r) u
              (elements (mimeTypesForURL (data_ r) u))).
  split.
  - etrans; [apply size_list_to_set_le|].
    etrans; [apply length_filter|]. by rewrite length_fmap.
  - case_decide as HP; [|done]. by rewrite HP, elements_empty.
Qed.

(** X4. When the viewer encoding is a bijection between labels and viewer
    mime types, a label is in [viewersForURL u] exactly when its viewer
    mime type is in [possibleMimeTypesForURL u]. *)
Theorem viewersForURL_iff_viewer_reachable u r (l : string) :
  (∀ l', extractViewerLabel (createViewerMimeType l') = Some l') →
  (∀ m l', extractViewerLabel m = Some l' → m = createViewerMimeType l') →
  ∃ (possible : gset MimeType) (viewers : gset (option string)),
    completion (possibleMimeTypesForURL u r) = Return possible ∧
    completion (viewersForURL u r) = Return viewers ∧
    (Some l ∈ viewers ↔ createViewerMimeType l ∈ possible).
Proof.
  intros Hround Hinv. eexists _, _.
  split; [reflexivity|]. split; [reflexivity|].
  rewrite elem_of_list_to_set, list_elem_of_filter, list_elem_of_fmap.
  split.
  - intros [_ (m & Hl & Hm)]. apply elem_of_elements in Hm.
    symmetry in Hl. by rewrite <-(Hinv m l Hl).
  - intros Hm. split; [done|]. exists (createViewerMimeType l).
    split; [by rewrite Hround|]. by apply elem_of_elements.
Qed.

(** ** viewURL *)

(** X9. [viewURL] publishes what its conversion publishes and nothing
    else, and it calls at most one payload: the one of the dataset the
    conversion returned. *)
Theorem viewURL_publishes_as_conversion fuel u (l : string) r :
  let c := convertByURL fuel u (createViewerMimeType l) r in
  let x := viewURL fuel u l r in
  published (events x) = published (events c) ∧
  yielded (events x) = yielded (events c) ∧
  called (events x)
    = match completion c with Return (Some v) => [v] | _ => [] end.
Proof.
  cbn zeta. rewrite viewURL_unfold. unfold view_after.
  destruct (convertByURL_chain fuel u (createViewerMimeType l) r)
    as (steps & e & r' & _ & _ & ->).
  cbn [completion final events].
  assert (called ([EvFilterByURL u;
                   EvConvert (filterByURL (data_ r) u)
                     (createViewerMimeType l)] ++ schedule steps e) = [])
    as Hcalled.
  { unfold called. rewrite omap_app. apply called_schedule. }
  remember ([EvFilterByURL u;
             EvConvert (filterByURL (data_ r) u) (createViewerMimeType l)]
              ++ schedule steps e) as tr eqn:Htr. clear Htr.
  destruct (end_completion e (last_of None steps)) as [[v|]|exc| |];
    cbn [events]; try done.
  unfold published, yielded, called in *.
  rewrite !omap_app, Hcalled. cbn. by rewrite !app_nil_r.
Qed.

End FacadeFrame.

(** ** Conversions on a store that keeps its datasets *)

Section StoreGrows.
Context {Payload Err IDisposable C D G : Type}.
Context `{!IDatasetRegistry Payload IDisposable D}.
Context `{!IConverterRegistry Payload Err C D G}.

Local Abbreviation dataset := (Dataset Payload).
Local Abbreviation registry := (DataRegistry C D).
Local Abbreviation keeps := (@keeps_datasets Payload Err IDisposable C D G _ _).

Implicit Types (g : G) (r : registry) (d : dataset) (u : URL).
Implicit Types (steps : list (dataset * bool)) (e : ChainEnd Err).

Lemma settle_contains d r : keeps → contains (data_ (settle d r)) d = true.
Proof.
  intros (Hpub & _ & _). unfold settle.
  destruct (contains (data_ r) d) eqn:Hc; [done|]. apply Hpub.
Qed.

Lemma settle_mono d r d' :
  keeps →
  contains (data_ r) d' = true → contains (data_ (settle d r)) d' = true.
Proof.
  intros (_ & Hmono & _) Hd'. unfold settle.
  destruct (contains (data_ r) d); [done|]. by apply Hmono.
Qed.

Lemma next_keeps g r res r1 d' :
  keeps → next g r = (res, r1) →
  contains (data_ r) d' = true → contains (data_ r1) d' = true.
Proof.
  intros (_ & _ & Hnext) Hn Hd'. specialize (Hnext g r d' Hd').
  by rewrite Hn in Hnext.
Qed.

Lemma chain_mono g r steps e r' d' :
  keeps → Chain g r steps e r' →
  contains (data_ r) d' = true → contains (data_ r') d' = true.
Proof.
  intros Hk. induction 1 as [g r|g r r' Hn|g r x r' Hn|g r r' Hn
                            |g r d g' r1 steps e r' Hn Hch IH];
    intros Hd'; eauto using next_keeps.
  apply IH. apply settle_mono; [done|]. eauto using next_keeps.
Qed.

Lemma chain_yielded_contained g r steps e r' :
  keeps → Chain g r steps e r' →
  Forall (λ x, contains (data_ r') x.1 = true) steps.
Proof.
  intros Hk. induction 1 as [g r|g r r' Hn|g r x r' Hn|g r r' Hn
                            |g r d g' r1 steps e r' Hn Hch IH];
    try by constructor.
  constructor; [|done]. cbn.
  eapply chain_mono; [done..|]. by apply settle_contains.
Qed.

Lemma chain_not_republished g r steps e r' d' :
  keeps → Chain g r steps e r' →
  contains (data_ r) d' = true →
  d' ∉ (filter (λ x, x.2 = false) steps).*1.
Proof.
  intros Hk. induction 1 as [g r|g r r' Hn|g r x r' Hn|g r r' Hn
                            |g r d g' r1 steps e r' Hn Hch IH];
    intros Hd'; try by apply not_elem_of_nil.
  assert (contains (data_ r1) d' = true) as Hd1 by eauto using next_keeps.
  specialize (IH (settle_mono d r1 d' Hk Hd1)).
  destruct (contains (data_ r1) d) eqn:Hc.
  - by rewrite filter_cons_False by (cbn; congruence).
  - rewrite filter_cons_True by done. cbn.
    apply not_elem_of_cons. split; [congruence|done].
Qed.

Lemma chain_published_NoDup g r steps e r' :
  keeps → Chain g r steps e r' →
  NoDup (filter (λ x, x.2 = false) steps).*1.
Proof.
  intros Hk. induction 1 as [g r|g r r' Hn|g r x r' Hn|g r r' Hn
                            |g r d g' r1 steps e r' Hn Hch IH];
    try by constructor.
  destruct (contains (data_ r1) d) eqn:Hc.
  - by rewrite filter_cons_False by (cbn; congruence).
  - rewrite filter_cons_True by done. cbn.
    apply NoDup_cons. split; [|done].
    eapply chain_not_republished; [done..|]. by apply settle_contains.
Qed.

(** X7. On a store that keeps its datasets, [convertByURL] removes
    nothing, and when it stops, however it stops, the store contains every
    element the iterator has produced. *)
Theorem convertByURL_store_grows fuel u (t : MimeType) r d :
  keeps →
  let x := convertByURL fuel u t r in
  (if contains (data_ r) d then contains (data_ (final x)) d = true
   else True) ∧
  Forall (λ d', contains (data_ (final x)) d' = true) (yielded (events x)).
Proof.
  intros Hk. cbn zeta.
  destruct (convertByURL_chain fuel u t r) as (steps & e & r' & Hch & _ & ->).
  cbn [final events]. split.
  - destruct (contains (data_ r) d) eqn:Hd; [|done].
    by eapply chain_mono.
  - unfold yielded. rewrite omap_app. cbn.
    fold (yielded (schedule steps e)). rewrite yielded_schedule.
    apply Forall_fmap. by eapply chain_yielded_contained.
Qed.

(** X8. On a store that keeps its datasets, one call of [convertByURL]
    publishes no dataset twice, and publishes no dataset the store
    contained when the call began. *)
Theorem convertByURL_publishes_once fuel u (t : MimeType) r :
  keeps →
  let x := convertByURL fuel u t r in
  NoDup (published (events x)) ∧
  Forall (λ d, contains (data_ r) d = false) (published (events x)).
Proof.
  intros Hk. cbn zeta.
  destruct (convertByURL_chain fuel u t r) as (steps & e & r' & Hch & _ & ->).
  cbn [events]. unfold published. rewrite omap_app. cbn.
  fold (published (schedule steps e)). rewrite published_schedule.
  split; [by eapply chain_published_NoDup|].
  apply Forall_forall. intros d Hd.
  destruct (contains (data_ r) d) eqn:Hc; [|done].
  by eapply chain_not_republished in Hd.
Qed.

(** X10. On a store that keeps its datasets, [registerURL u] removes
    nothing, and afterwards the store contains the dataset [u] resolves
    to, whether it was published by this call or before. *)
Theorem registerURL_store_grows `{!Resolvers Payload} u r d :
  keeps →
  let x := registerURL (Err:=Err) u r in
  contains (data_ (final x)) (resolveDataSet u) = true ∧
  (if contains (data_ r) d then contains (data_ (final x)) d = true
   else True).
Proof.
  intros (Hpub & Hmono & _). cbn zeta.
  unfold registerURL, bind, call_resolveDataSet, data_contains, data_publish.
  cbn. destruct (contains (data_ r) (resolveDataSet u)) eqn:Hc; cbn.
  - split; [done|]. by destruct (contains (data_ r) d) eqn:Hd.
  - pose proof (Hpub (data_ r) (resolveDataSet u)) as Hp.
    pose proof (Hmono (data_ r) (resolveDataSet u) d) as Hm.
    destruct (publish (data_ r) (resolveDataSet u)) as [h s]. cbn in *.
    split; [done|]. destruct (contains (data_ r) d); [by apply Hm|done].
Qed.

End StoreGrows.

(** ** The modelled collaborators satisfy the assumptions *)

Module FakeLaws.
Import Fake.

Lemma fake_keeps_datasets :
  @keeps_datasets Payload Err IDisposable Converters Store Iter _ _.
Proof.
  split; [exact FakeProperties.store_contains_publish|]. split.
  - intros s d d' Hd'. cbn in *. unfold store_contains in *.
    by rewrite existsb_app, Hd'.
  - intros g r d' Hd'.
    destruct g as [d todo|d [|c todo]|]; cbn; try done.
    by destruct (transform c (data d)).
Qed.

Lemma strip_prefix_append (p l : string) : strip_prefix p (p +:+ l) = Some l.
Proof.
  induction p as [|a p IH]; [done|].
  simpl. by case_decide.
Qed.

Lemma strip_prefix_inv (p m l : string) :
  strip_prefix p m = Some l → m = p +:+ l.
Proof.
  revert m. induction p as [|a p IH]; intros m; cbn.
  - by intros [= ->].
  - destruct m as [|b m]; [done|]. case_decide as Hab; [|done].
    intros Hs. subst b. change (String a m = String a (p +:+ l)).
    f_equal. by apply IH.
Qed.

Lemma fake_viewer_round_trip (l : string) :
  extractViewerLabel (createViewerMimeType l) = Some l.
Proof. apply strip_prefix_append. Qed.

Lemma fake_viewer_inverse (m : MimeType) (l : string) :
  extractViewerLabel m = Some l → m = createViewerMimeType l.
Proof. apply strip_prefix_inv. Qed.

(** Witness of X1: [url_a] registered, with its resolved mime type only. *)
Lemma hasConversions_agrees_with_possible_witness :
  mimeTypesForURL (data_ (registered [csv_to_json])) url_a
    = {[resolveMimeType]} ∧
  ∃ possible : gset MimeType,
    completion (possibleMimeTypesForURL url_a (registered [csv_to_json]))
      = Return possible ∧
    completion (hasConversions url_a (registered [csv_to_json]))
      = Return (bool_decide (1 < size possible)).
Proof.
  assert (mimeTypesForURL (data_ (registered [csv_to_json])) url_a
          = {[resolveMimeType]}) as Hm by (by vm_compute).
  split; [exact Hm|].
  exact (hasConversions_agrees_with_possible url_a
           (registered [csv_to_json]) Hm).
Defined.

(** Witness of X4: the label of the table viewer. *)
Lemma viewersForURL_iff_viewer_reachable_witness :
  ∃ (possible : gset MimeType) (viewers : gset (option string)),
    completion (possibleMimeTypesForURL url_a
                  (registered [csv_to_json; json_to_table]))
      = Return possible ∧
    completion (viewersForURL url_a
                  (registered [csv_to_json; json_to_table]))
      = Return viewers ∧
    (Some "Table" ∈ viewers ↔ createViewerMimeType "Table" ∈ possible).
Proof.
  exact (viewersForURL_iff_viewer_reachable url_a
           (registered [csv_to_json; json_to_table]) "Table"
           fake_viewer_round_trip fake_viewer_inverse).
Defined.

(** Witness of X6: the converter to [json] fails after the dataset of the
    store has been produced. *)
Lemma convertByURL_failure_keeps_publications_witness :
  completion (convertByURL 5 url_a json (registered [json_broken]))
    = Raise (Thrown "malformed") ∧
  final (convertByURL 5 url_a json (registered [json_broken]))
    = registered [json_broken].
Proof.
  pose proof (convertByURL_failure_keeps_publications 5 url_a json
                (registered [json_broken]) [(csv_ds, true)]
                (Thrown "malformed") (registered [json_broken])) as H.
  cbn zeta in H.
  assert (Chain (convert (converters (registered [json_broken]))
                   (filterByURL (data_ (registered [json_broken])) url_a)
                   json)
                (registered [json_broken]) [(csv_ds, true)]
                (EndThrown (Thrown "malformed")) (registered [json_broken]))
    as Hch.
  { refine (chain_yield (IterStart csv_ds [json_broken])
              (registered [json_broken]) csv_ds
              (IterAfter csv_ds [json_broken]) (registered [json_broken])
              [] _ _ eq_refl _).
    exact (chain_throw (IterAfter csv_ds [json_broken]) _ _ _ eq_refl). }
  destruct (H Hch ltac:(cbn; lia)) as (Hc & Hf & _). split; [exact Hc|exact Hf].
Defined.

(** Witness of X7: the chain from [csv] to the table viewer. *)
Lemma convertByURL_store_grows_witness :
  Forall (λ d, contains
                 (data_ (final (convertByURL 5 url_a table
                                  (registered [csv_to_json; json_to_table]))))
                 d = true)
         (yielded (events (convertByURL 5 url_a table
                             (registered [csv_to_json; json_to_table])))).
Proof.
  exact (proj2 (convertByURL_store_grows 5 url_a table
                  (registered [csv_to_json; json_to_table]) csv_ds
                  fake_keeps_datasets)).
Defined.

(** Witness of X8: the same chain. *)
Lemma convertByURL_publishes_once_witness :
  NoDup (published (events (convertByURL 5 url_a table
                              (registered [csv_to_json; json_to_table])))).
Proof.
  exact (proj1 (convertByURL_publishes_once 5 url_a table
                  (registered [csv_to_json; json_to_table])
                  fake_keeps_datasets)).
Defined.

(** Witness of X10: registering [url_a] on the empty store. *)
Lemma registerURL_store_grows_witness :
  contains (data_ (final (registerURL (Err:=Err) url_a (empty_registry []))))
           (resolveDataSet url_a) = true.
Proof.
  exact (proj1 (registerURL_store_grows (Err:=Err) url_a (empty_registry [])
                  csv_ds fake_keeps_datasets)).
Defined.

End FakeLaws.
